(** * EmptyObservable: the producer that only completes

    A shallow embedding of [src/observable/EmptyObservable.ts] and of the
    parts of the subscription/scheduling core it talks to.

    The definitions come first.
    - The language of the embedding: JavaScript values, the heap of
      [EmptyObservable] instances, and a small program monad [prog] whose
      operations are the field accesses of the class and the method calls
      it makes on the objects handed to it (a subscriber, a scheduler).
    - [Module EmptyObservable]: the class, member by member.
    - [Module Core]: the consumer, the subscription and a manually
      steppable scheduler, which are not part of the translated sources
      and are modelled from the specification.
    - The vocabulary of the statements.
    The properties follow: of the class under every environment, then of
    the class inside the core world. *)

From Stdlib Require Import ZArith Lia.
From stdpp Require Import base option list gmap.

Set Default Proof Using "Type".
Open Scope Z_scope.
Open Scope nat_scope.

(** ** Values *)

(** Object references. *)
Abbreviation loc := nat.

(** The JavaScript values that can reach a position typed
    [scheduler?: Scheduler] or be returned as [TeardownLogic]. *)
Inductive value :=
| undefined
| null
| object (l : loc).

#[global] Instance value_eq_dec : EqDecision value.
Proof. solve_decision. Defined.

(** [if (v)]: an object is truthy, [undefined] and [null] are not. *)
Definition truthy (v : value) : bool :=
  match v with
  | undefined | null => false
  | object _ => true
  end.

(** An optional parameter [p?: T]: [None] is a call that leaves the
    argument out, in which case the parameter is bound to [undefined]. *)
Definition param (arg : option value) : value := default undefined arg.

Abbreviation Subscriber := loc.
Abbreviation Scheduler := loc.
Abbreviation Subscription := loc.

(** [TeardownLogic]: what [_subscribe] hands back, either nothing
    ([undefined]) or an object to be closed. *)
Abbreviation TeardownLogic := value.

(** The object literal [{ subscriber }] passed to the scheduler as the state
    of the scheduled work. *)
Record DispatchState := { subscriber : Subscriber }.

(** ** Classes and instances *)

Inductive class := C_Observable | C_EmptyObservable.

#[global] Instance class_eq_dec : EqDecision class.
Proof. solve_decision. Defined.

(** [class EmptyObservable<T> extends Observable<T>] *)
Definition extends (c : class) : option class :=
  match c with
  | C_EmptyObservable => Some C_Observable
  | C_Observable => None
  end.

(** An [EmptyObservable] instance: its class and its one field,
    [private scheduler]. *)
Record instance := { class_of : class; scheduler : value }.

(** [o instanceof c], along the (two element) prototype chain. *)
Definition instanceof (o : instance) (c : class) : bool :=
  bool_decide (class_of o = c) || bool_decide (extends (class_of o) = Some c).

(** The heap of instances; a reference is an index. *)
Abbreviation heap := (list instance).

(** ** Programs *)

(** The operations of the class: allocation and the accesses to the
    [scheduler] field, and the calls it can make on a subscriber
    ([next], [error], [complete]) and on a scheduler ([schedule]).  The
    work handed to [schedule] is itself a program, taking the state. *)
Inductive prog (R : Type) : Type :=
| Ret (r : R)
| New (c : class) (k : loc -> prog R)
| GetScheduler (this : loc) (k : value -> prog R)
| SetScheduler (this : loc) (v : value) (k : prog R)
| Next (s : Subscriber) (v : value) (k : prog R)
| Error (s : Subscriber) (e : value) (k : prog R)
| Complete (s : Subscriber) (k : prog R)
| Schedule (recv : value) (work : DispatchState -> prog unit) (delay : Z)
    (state : DispatchState) (k : Subscription -> prog R).

Arguments Ret {R} r.
Arguments New {R} c k.
Arguments GetScheduler {R} this k.
Arguments SetScheduler {R} this v k.
Arguments Next {R} s v k.
Arguments Error {R} s e k.
Arguments Complete {R} s k.
Arguments Schedule {R} recv work delay state k.

Fixpoint bind {A B : Type} (p : prog A) (f : A -> prog B) : prog B :=
  match p with
  | Ret r => f r
  | New c k => New c (fun l => bind (k l) f)
  | GetScheduler this k => GetScheduler this (fun v => bind (k v) f)
  | SetScheduler this v k => SetScheduler this v (bind k f)
  | Next s v k => Next s v (bind k f)
  | Error s e k => Error s e (bind k f)
  | Complete s k => Complete s (bind k f)
  | Schedule recv work delay state k =>
      Schedule recv work delay state (fun h => bind (k h) f)
  end.

#[global] Instance prog_ret : MRet prog := @Ret.
#[global] Instance prog_bind : MBind prog := fun A B f p => bind p f.

(** One statement each. *)
Definition new_object (c : class) : prog loc := New c Ret.
Definition get_scheduler (this : loc) : prog value := GetScheduler this Ret.
Definition set_scheduler (this : loc) (v : value) : prog unit :=
  SetScheduler this v (Ret tt).
Definition next (s : Subscriber) (v : value) : prog unit := Next s v (Ret tt).
Definition error (s : Subscriber) (e : value) : prog unit := Error s e (Ret tt).
Definition complete (s : Subscriber) : prog unit := Complete s (Ret tt).
Definition schedule (recv : value) (work : DispatchState -> prog unit)
    (delay : Z) (state : DispatchState) : prog Subscription :=
  Schedule recv work delay state Ret.

(** ** Running a program *)

(** A method call as seen from outside the class. *)
Inductive call :=
| next_call (s : Subscriber) (v : value)
| error_call (s : Subscriber) (e : value)
| complete_call (s : Subscriber)
| schedule_call (sch : Scheduler) (work : DispatchState -> prog unit)
    (delay : Z) (state : DispatchState).

Definition is_subscriber_call (c : call) : bool :=
  match c with
  | schedule_call _ _ _ _ => false
  | _ => true
  end.

Definition is_next_call (c : call) : bool :=
  match c with next_call _ _ => true | _ => false end.

Definition is_error_call (c : call) : bool :=
  match c with error_call _ _ => true | _ => false end.

Definition is_complete_call (c : call) : bool :=
  match c with complete_call _ => true | _ => false end.

Definition is_schedule_call (c : call) : bool :=
  match c with schedule_call _ _ _ _ => true | _ => false end.

(** The objects the class is handed: what each of their methods does to
    the world [W] they live in.  The class never sees [W]. *)
Record env (W : Type) := {
  on_next : Subscriber -> value -> W -> W;
  on_error : Subscriber -> value -> W -> W;
  on_complete : Subscriber -> W -> W;
  on_schedule :
    Scheduler -> (DispatchState -> prog unit) -> Z -> DispatchState ->
    W -> W * Subscription
}.

Arguments on_next {W} _ _ _ _.
Arguments on_error {W} _ _ _ _.
Arguments on_complete {W} _ _ _.
Arguments on_schedule {W} _ _ _ _ _ _.

(** The outcome of a run: the calls the program made, in order, the heap
    and the world it left, and its result. *)
Record outcome (W R : Type) := {
  calls : list call;
  final_heap : heap;
  final_world : W;
  result : R
}.

Arguments calls {W R} _.
Arguments final_heap {W R} _.
Arguments final_world {W R} _.
Arguments result {W R} _.

Definition called {W R} (c : call) (o : outcome W R) : outcome W R :=
  {| calls := c :: calls o; final_heap := final_heap o;
     final_world := final_world o; result := result o |}.

(** [run E p σ w] is [None] when the program reads or writes a field of a
    reference that is not on the heap, or calls a method on [undefined]
    or [null] (a TypeError). *)
Fixpoint run {W R : Type} (E : env W) (p : prog R) (σ : heap) (w : W)
    : option (outcome W R) :=
  match p with
  | Ret r =>
      Some {| calls := []; final_heap := σ; final_world := w; result := r |}
  | New c k =>
      run E (k (length σ)) (σ ++ [{| class_of := c; scheduler := undefined |}]) w
  | GetScheduler this k =>
      match σ !! this with
      | Some o => run E (k (scheduler o)) σ w
      | None => None
      end
  | SetScheduler this v k =>
      match σ !! this with
      | Some o =>
          run E k (<[this := {| class_of := class_of o; scheduler := v |}]> σ) w
      | None => None
      end
  | Next s v k => called (next_call s v) <$> run E k σ (on_next E s v w)
  | Error s e k => called (error_call s e) <$> run E k σ (on_error E s e w)
  | Complete s k => called (complete_call s) <$> run E k σ (on_complete E s w)
  | Schedule recv work delay state k =>
      match recv with
      | object sch =>
          let '(w', h) := on_schedule E sch work delay state w in
          called (schedule_call sch work delay state) <$> run E (k h) σ w'
      | undefined | null => None
      end
  end.

(** * The class *)

(** Modelled from the spec: the constructor of the base class
    [Observable], which is not among the translated sources and is what
    [super()] runs; "Constructing a Producer performs no work". *)
Definition Observable_constructor (this : loc) : prog unit := Ret tt.

Module EmptyObservable.

(** [constructor(private scheduler?: Scheduler) { super(); }]: the
    parameter property stores the argument in [this.scheduler]. *)
Definition constructor (this : loc) (scheduler : option value) : prog unit :=
  Observable_constructor this;;
  set_scheduler this (param scheduler).

(** [new EmptyObservable<T>(scheduler)] *)
Definition new (scheduler : option value) : prog loc :=
  this ← new_object C_EmptyObservable;
  constructor this scheduler;;
  Ret this.

(** [static create<T>(scheduler?: Scheduler): Observable<T>] *)
Definition create (scheduler : option value) : prog loc :=
  new (Some (param scheduler)).

(** [static dispatch({ subscriber })] *)
Definition dispatch (state : DispatchState) : prog unit :=
  complete (subscriber state).

(** [protected _subscribe(subscriber: Subscriber<T>): TeardownLogic] *)
Definition _subscribe (this : loc) (subscriber : Subscriber)
    : prog TeardownLogic :=
  scheduler ← get_scheduler this;
  if truthy scheduler then
    h ← schedule scheduler dispatch 0%Z {| subscriber := subscriber |};
    Ret (object h)
  else
    complete subscriber;;
    Ret undefined.

End EmptyObservable.

(** * The core around the class

    [Subscriber], [Subscription], [Scheduler] and [Observable.subscribe]
    are not among the translated sources.  This module models them from
    the specification (its sections 3, 4.1 to 4.4 and 8), as one world in
    which the class can be run.  The schedulers of this world are of the
    deferred kind and are stepped by hand; the immediate variant of
    section 4.4 is not part of it. *)

Module Core.

(** Modelled from the spec: the raw handler set a Consumer wraps, "up to
    three optional callbacks (next, error, complete)".  The callbacks
    are spies: invoking one is recorded as a [notification]. *)
Record Handlers := {
  has_next : bool;
  has_error : bool;
  has_complete : bool
}.

(** Modelled from the spec: the invocation of a user handler, and the
    "unhandled-error fault" of section 4.2. *)
Inductive notification :=
| next_handler (s : Subscriber) (v : value)
| error_handler (s : Subscriber) (e : value)
| complete_handler (s : Subscriber)
| unhandled_error (s : Subscriber) (e : value).

(** Modelled from the spec: the Consumer of section 3, "a boolean
    [stopped], and its own Subscription state", the latter being "a
    boolean [closed]" and the teardown units it owns.  The units of this
    world are the handles a scheduler returns. *)
Record Consumer := {
  handlers : Handlers;
  stopped : bool;
  closed : bool;
  children : list Subscription
}.

(** Modelled from the spec: the Action of section 3, "the deferred
    invocation of [work(state)]; itself a Subscription".  [ancestors]
    are the actions whose work scheduled this one (section 4.4: a
    re-schedule is "chained as a child of the original"). *)
Record Action := {
  id : Subscription;
  owner : Scheduler;
  due : nat;
  work : DispatchState -> prog unit;
  state : DispatchState;
  ancestors : list Subscription
}.

(** Modelled from the spec: the state the components of section 2 share.
    The consumers, the virtual time of every scheduler, the actions not
    yet run in the order they were scheduled, the action being run (with
    its ancestors), the next free reference and the handler invocations so
    far, oldest first. *)
Record World := {
  consumers : gmap loc Consumer;
  clocks : gmap loc nat;
  pending : list Action;
  running : list Subscription;
  next_loc : loc;
  delivered : list notification
}.

(** Modelled from the spec: the updates of one component of the world. *)
Definition set_consumers (m : gmap loc Consumer) (w : World) : World :=
  {| consumers := m; clocks := clocks w; pending := pending w;
     running := running w; next_loc := next_loc w;
     delivered := delivered w |}.

(** Modelled from the spec: a scheduler's clock moves. *)
Definition set_clocks (m : gmap loc nat) (w : World) : World :=
  {| consumers := consumers w; clocks := m; pending := pending w;
     running := running w; next_loc := next_loc w;
     delivered := delivered w |}.

(** Modelled from the spec: the queue of actions changes. *)
Definition set_pending (q : list Action) (w : World) : World :=
  {| consumers := consumers w; clocks := clocks w; pending := q;
     running := running w; next_loc := next_loc w;
     delivered := delivered w |}.

(** Modelled from the spec: an action starts or ends running. *)
Definition set_running (r : list Subscription) (w : World) : World :=
  {| consumers := consumers w; clocks := clocks w; pending := pending w;
     running := r; next_loc := next_loc w; delivered := delivered w |}.

(** Modelled from the spec: a reference is taken. *)
Definition set_next_loc (n : loc) (w : World) : World :=
  {| consumers := consumers w; clocks := clocks w; pending := pending w;
     running := running w; next_loc := n; delivered := delivered w |}.

(** Modelled from the spec: a user handler is invoked. *)
Definition deliver (n : notification) (w : World) : World :=
  {| consumers := consumers w; clocks := clocks w; pending := pending w;
     running := running w; next_loc := next_loc w;
     delivered := delivered w ++ [n] |}.

(** ** Subscription *)

(** Modelled from the spec: which pending actions outlive the closing of
    the handle [h], section 4.4: "cancelling the outer handle also cancels
    any pending recursive continuation". *)
Definition survives (h : Subscription) (a : Action) : bool :=
  negb (bool_decide (id a = h)) && negb (bool_decide (h ∈ ancestors a)).

(** Modelled from the spec: closing the handle of an action, section 3,
    "Cancelling before execution prevents it; cancelling during/after is
    a no-op". *)
Definition cancel (h : Subscription) (w : World) : World :=
  set_pending (filter (fun a => survives h a = true) (pending w)) w.

(** Modelled from the spec: [close()] of section 4.3 on the Subscription
    of a consumer: "idempotent", closes all children; section 5: closing
    "flips the Consumer's [stopped] flag". *)
Definition close_consumer (s : Subscriber) (c : Consumer) (w : World)
    : World :=
  if closed c then w
  else
    foldl (fun w u => cancel u w)
      (set_consumers
         (<[s := {| handlers := handlers c; stopped := true;
                    closed := true; children := [] |}]> (consumers w)) w)
      (children c).

(** Modelled from the spec: [close()] on any Subscription of the world,
    a consumer (section 2: a Consumer "is itself a Subscription") or else
    the handle of an action. *)
Definition close (x : Subscription) (w : World) : World :=
  match consumers w !! x with
  | Some c => close_consumer x c w
  | None => cancel x w
  end.

(** Modelled from the spec: [add(unit)] of section 4.3, "registers a
    child; if the parent is already closed, the child is torn down
    immediately instead of retained".  Nothing is registered for
    [undefined]. *)
Definition add (parent : Subscriber) (teardown : TeardownLogic) (w : World)
    : World :=
  match teardown, consumers w !! parent with
  | object u, Some c =>
      if closed c then cancel u w
      else
        set_consumers
          (<[parent := {| handlers := handlers c; stopped := stopped c;
                          closed := closed c;
                          children := children c ++ [u] |}]> (consumers w)) w
  | _, _ => w
  end.

(** ** Consumer *)

(** Modelled from the spec, section 4.2: "set [stopped = true]". *)
Definition stop (s : Subscriber) (c : Consumer) (w : World) : World :=
  set_consumers
    (<[s := {| handlers := handlers c; stopped := true; closed := closed c;
               children := children c |}]> (consumers w)) w.

(** Modelled from the spec, section 4.2: "Each first checks [stopped]; if
    set, the call is a no-op.  [next] forwards to the user's next-handler
    if present".  A reference that names no consumer of the world is
    outside the model: a call on it changes nothing. *)
Definition consumer_next (s : Subscriber) (v : value) (w : World) : World :=
  match consumers w !! s with
  | Some c =>
      if stopped c then w
      else if has_next (handlers c) then deliver (next_handler s v) w
      else w
  | None => w
  end.

(** Modelled from the spec, section 4.2: "[error] and [complete] each: set
    [stopped = true], invoke the matching user handler (missing error
    handler => surface an unhandled-error fault; missing complete handler
    is fine), then close the Consumer's own Subscription". *)
Definition consumer_error (s : Subscriber) (e : value) (w : World) : World :=
  match consumers w !! s with
  | Some c =>
      if stopped c then w
      else
        close s
          (deliver
             (if has_error (handlers c) then error_handler s e
              else unhandled_error s e)
             (stop s c w))
  | None => w
  end.

(** Modelled from the spec, section 4.2: [complete], as [error] above;
    "missing complete handler is fine". *)
Definition consumer_complete (s : Subscriber) (w : World) : World :=
  match consumers w !! s with
  | Some c =>
      if stopped c then w
      else
        close s
          (if has_complete (handlers c)
           then deliver (complete_handler s) (stop s c w)
           else stop s c w)
  | None => w
  end.

(** ** Scheduler *)

(** Modelled from the spec: the virtual time of a scheduler; one that was
    never advanced is at time 0. *)
Definition now (sch : Scheduler) (w : World) : nat :=
  default 0 (clocks w !! sch).

(** Modelled from the spec: [schedule(work, delay >= 0, state)] of the
    deferred variant of section 4.4, which "queues [work] for execution
    no earlier than [delay] after scheduling" and returns a handle. *)
Definition scheduler_schedule (sch : Scheduler)
    (work : DispatchState -> prog unit) (delay : Z) (state : DispatchState)
    (w : World) : World * Subscription :=
  let h := next_loc w in
  (set_next_loc (S h)
     (set_pending
        (pending w ++
         [{| id := h; owner := sch; due := now sch w + Z.to_nat delay;
             work := work; state := state; ancestors := running w |}]) w),
   h).

(** Modelled from the spec: the subscriber and the scheduler that the
    class meets in this world. *)
Definition world_env : env World := {|
  on_next := consumer_next;
  on_error := consumer_error;
  on_complete := consumer_complete;
  on_schedule := scheduler_schedule
|}.

(** Modelled from the spec: the manual step of a test scheduler.  Time
    only moves when [tick] is called. *)
Definition tick (sch : Scheduler) (d : nat) (w : World) : World :=
  set_clocks (<[sch := now sch w + d]> (clocks w)) w.

(** Modelled from the spec, section 4.4: an action runs "no earlier than
    [delay] after scheduling". *)
Definition is_due (sch : Scheduler) (w : World) (a : Action) : bool :=
  bool_decide (owner a = sch) && bool_decide (due a ≤ now sch w).

(** Modelled from the spec, section 4.4: the action due first, the one
    scheduled first among those due at the same time. *)
Fixpoint earliest (best : Action) (q : list Action) : Action :=
  match q with
  | [] => best
  | a :: q' => earliest (if bool_decide (due a < due best) then a else best) q'
  end.

(** Modelled from the spec, section 4.4: the next action of a scheduler
    is the one due first, in "FIFO order among actions scheduled for the
    same due time on the same scheduler instance". *)
Definition next_action (sch : Scheduler) (w : World) : option Action :=
  match filter (fun a => is_due sch w a = true) (pending w) with
  | [] => None
  | a :: q => Some (earliest a q)
  end.

(** Modelled from the spec, section 3: an Action is "the deferred
    invocation of [work(state)]".  It leaves the queue, then
    [work(state)] runs, with the calls it makes answered by this world. *)
Definition fire (a : Action) (σ : heap) (w : World) : option (heap * World) :=
  out ← run world_env (work a (state a)) σ
          (set_running (id a :: ancestors a)
             (set_pending
                (filter (fun b => negb (bool_decide (id b = id a)) = true)
                   (pending w)) w));
  Some (final_heap out, set_running (running w) (final_world out)).

(** Modelled from the spec, section 8: the "manually-steppable test
    Scheduler", as a step relation.  A scheduler is advanced by hand, or
    runs its next due action. *)
Inductive step : heap * World -> heap * World -> Prop :=
| step_tick σ w sch d :
    step (σ, w) (σ, tick sch d w)
| step_fire σ w sch a σ' w' :
    next_action sch w = Some a ->
    fire a σ w = Some (σ', w') ->
    step (σ, w) (σ', w').

(** Modelled from the spec: running the due actions of a scheduler, at
    most [fuel] of them (the work of an action may schedule again). *)
Fixpoint flush (fuel : nat) (sch : Scheduler) (σ : heap) (w : World)
    : option (heap * World) :=
  match fuel with
  | 0 => Some (σ, w)
  | S fuel' =>
      match next_action sch w with
      | None => Some (σ, w)
      | Some a => '(σ', w') ← fire a σ w; flush fuel' sch σ' w'
      end
  end.

(** Modelled from the spec, section 8: "advancing" a test scheduler by
    [d], which moves its clock and runs what is due. *)
Definition advance (fuel : nat) (sch : Scheduler) (d : nat)
    (σ : heap) (w : World) : option (heap * World) :=
  flush fuel sch σ (tick sch d w).

(** ** Producer *)

(** Modelled from the spec, section 4.1: [subscribe] "normalizes raw
    handler sets into a Consumer if needed". *)
Definition toSubscriber (hs : Handlers) (w : World) : World * Subscriber :=
  let s := next_loc w in
  (set_next_loc (S s)
     (set_consumers
        (<[s := {| handlers := hs; stopped := false; closed := false;
                   children := [] |}]> (consumers w)) w),
   s).

(** Modelled from the spec, section 4.1: [subscribe(consumer)] "invokes
    the generation logic exactly once with that Consumer, returns a
    Subscription for the attachment.  Any teardown value returned by the
    generation logic is registered as a child of that Subscription". *)
Definition subscribe (this : loc) (consumer : Subscriber)
    (σ : heap) (w : World) : option (heap * World * Subscription) :=
  out ← run world_env (EmptyObservable._subscribe this consumer) σ w;
  Some (final_heap out, add consumer (result out) (final_world out), consumer).

(** Modelled from the spec, section 4.1: [subscribe] given a raw handler
    set, as in [subscribe({complete: fn})]. *)
Definition subscribe_handlers (this : loc) (hs : Handlers)
    (σ : heap) (w : World) : option (heap * World * Subscription) :=
  let '(w', s) := toSubscriber hs w in subscribe this s σ w'.

(** ** The immediate scheduler *)

(** Modelled from the spec, section 4.4: "An 'immediate' scheduler variant
    with [delay == 0] executes [work] synchronously before [schedule]
    returns".  The work runs against the heap [σ], the calls it makes
    answered by [world_env]; with another delay the call is queued as by
    the deferred scheduler, and a work that fails leaves the world as it
    was. *)
Definition immediate_schedule (σ : heap) (sch : Scheduler)
    (work : DispatchState -> prog unit) (delay : Z) (state : DispatchState)
    (w : World) : World * Subscription :=
  let h := next_loc w in
  if bool_decide (delay = 0%Z) then
    match run world_env (work state) σ
            (set_running (h :: running w) (set_next_loc (S h) w)) with
    | Some out => (set_running (running w) (final_world out), h)
    | None => (set_next_loc (S h) w, h)
    end
  else scheduler_schedule sch work delay state w.

(** Modelled from the spec: the subscriber, and the immediate scheduler of
    section 4.4 in the place of the deferred one. *)
Definition immediate_env (σ : heap) : env World := {|
  on_next := consumer_next;
  on_error := consumer_error;
  on_complete := consumer_complete;
  on_schedule := immediate_schedule σ
|}.

End Core.

(** * The vocabulary of the statements *)

(** [this] refers to an [EmptyObservable] whose [scheduler] is [v]. *)
Definition constructed_with (σ : heap) (this : loc) (v : value) : Prop :=
  σ !! this = Some {| class_of := C_EmptyObservable; scheduler := v |}.

(** Sequencing two outcomes. *)
Definition and_then {W A B} (o : outcome W A) (o' : outcome W B) : outcome W B :=
  {| calls := calls o ++ calls o'; final_heap := final_heap o';
     final_world := final_world o'; result := result o' |}.

(** No call in this list is a [next] or an [error]. *)
Definition only_completion (cs : list call) : Prop :=
  Forall (fun c => is_next_call c = false ∧ is_error_call c = false) cs.

(** The one call an attachment makes, given the stored scheduler. *)
Definition attachment_call (v : value) (sub : Subscriber) : call :=
  match v with
  | object sch =>
      schedule_call sch EmptyObservable.dispatch 0%Z {| subscriber := sub |}
  | undefined | null => complete_call sub
  end.

(** Several attachments to one producer, one after the other. *)
Fixpoint subscribe_each (this : loc) (subs : list Subscriber)
    : prog (list TeardownLogic) :=
  match subs with
  | [] => Ret []
  | sub :: subs' =>
      t ← EmptyObservable._subscribe this sub;
      ts ← subscribe_each this subs';
      Ret (t :: ts)
  end.

(** A use of the class from outside: a call of one of its members. *)
Inductive member_call :=
| call_create (scheduler : option value)
| call_subscribe (this : loc) (sub : Subscriber)
| call_dispatch (state : DispatchState).

Definition member (m : member_call) : prog unit :=
  match m with
  | call_create scheduler => EmptyObservable.create scheduler;; Ret tt
  | call_subscribe this sub => EmptyObservable._subscribe this sub;; Ret tt
  | call_dispatch state => EmptyObservable.dispatch state
  end.

Fixpoint members (ms : list member_call) : prog unit :=
  match ms with
  | [] => Ret tt
  | m :: ms' => member m;; members ms'
  end.

(** The action [_subscribe] leaves with the scheduler [sch] in the world
    [w]: [dispatch] on [{ subscriber }], due at once. *)
Definition scheduled (sch : Scheduler) (sub : Subscriber) (w : Core.World)
    : Core.Action :=
  {| Core.id := Core.next_loc w; Core.owner := sch;
     Core.due := Core.now sch w + Z.to_nat 0;
     Core.work := EmptyObservable.dispatch;
     Core.state := {| subscriber := sub |};
     Core.ancestors := Core.running w |}.

(** Attaching with a scheduler "without invoking any subscriber method
    synchronously", in the world of [Core] with the scheduler of [E]:
    [_subscribe] makes the one call [schedule(dispatch, 0, { subscriber })]
    and returns its handle, and when it returns no method of a subscriber
    has been invoked: the consumers and the handler invocations are as
    they were. *)
Definition schedules_without_notifying (E : env Core.World) (σ : heap)
    (w : Core.World) (this : loc) (sch : Scheduler) (sub : Subscriber) : Prop :=
  ∃ out,
    run E (EmptyObservable._subscribe this sub) σ w = Some out ∧
    calls out =
      [schedule_call sch EmptyObservable.dispatch 0%Z {| subscriber := sub |}] ∧
    result out =
      object (on_schedule E sch EmptyObservable.dispatch 0%Z
                {| subscriber := sub |} w).2 ∧
    Core.consumers (final_world out) = Core.consumers w ∧
    Core.delivered (final_world out) = Core.delivered w.

(** The consumer once [subscribe] has registered the handle [h] with it. *)
Definition attached (c : Core.Consumer) (h : Subscription) : Core.Consumer :=
  {| Core.handlers := Core.handlers c; Core.stopped := Core.stopped c;
     Core.closed := Core.closed c; Core.children := Core.children c ++ [h] |}.

(** The world right after [subscribe] on a producer that holds [sch]. *)
Definition attachment (sch : Scheduler) (sub : Subscriber) (c : Core.Consumer)
    (w : Core.World) : Core.World :=
  Core.set_consumers
    (<[sub := attached c (Core.next_loc w)]> (Core.consumers w))
    (Core.scheduler_schedule sch EmptyObservable.dispatch 0%Z
       {| subscriber := sub |} w).1.

(** Nothing has happened yet: the action is the one thing pending. *)
Definition waiting (a : Core.Action) (sub : Subscriber) (c : Core.Consumer)
    (seen : list Core.notification) (w : Core.World) : Prop :=
  Core.pending w = [a] ∧ Core.delivered w = seen ∧
  Core.consumers w !! sub = Some c.

(** It has run: nothing is pending, the handler was invoked once more. *)
Definition completed (sub : Subscriber) (seen : list Core.notification)
    (w : Core.World) : Prop :=
  Core.pending w = [] ∧
  Core.delivered w = seen ++ [Core.complete_handler sub].

(** The notifications of the consumer [s]: the invocations of its handlers. *)
Definition about (s : Subscriber) (n : Core.notification) : bool :=
  match n with
  | Core.next_handler s' _ | Core.error_handler s' _
  | Core.complete_handler s' | Core.unhandled_error s' _ =>
      bool_decide (s' = s)
  end.

Definition notifications_of (s : Subscriber) (w : Core.World)
    : list Core.notification :=
  filter (fun n => about s n = true) (Core.delivered w).

(** No action pending on the scheduler [sch] is due at time [t] or before. *)
Definition nothing_due (sch : Scheduler) (t : nat) (w : Core.World) : Prop :=
  Forall (fun a => Core.owner a = sch -> t < Core.due a) (Core.pending w).

(** Every consumer is in one of two states: active, or stopped and
    closed. *)
Definition consistent (w : Core.World) : Prop :=
  map_Forall (fun _ c => Core.stopped c = Core.closed c) (Core.consumers w).

(** ** Uses of the class *)

(** The calls one member call makes, read off the heap [σ] it leaves. *)
Definition member_calls (σ : heap) (m : member_call) : list call :=
  match m with
  | call_create _ => []
  | call_subscribe this sub =>
      match σ !! this with
      | Some o => [attachment_call (scheduler o) sub]
      | None => []
      end
  | call_dispatch state => [complete_call (subscriber state)]
  end.

(** Every [_subscribe] of the sequence is aimed at an instance that
    exists by then, the heap holding [n] instances at the start. *)
Fixpoint well_aimed (n : nat) (ms : list member_call) : bool :=
  match ms with
  | [] => true
  | call_create _ :: ms' => well_aimed (S n) ms'
  | call_subscribe this _ :: ms' => bool_decide (this < n) && well_aimed n ms'
  | call_dispatch _ :: ms' => well_aimed n ms'
  end.

(** [create], once for each argument of a list. *)
Fixpoint create_each (args : list (option value)) : prog (list loc) :=
  match args with
  | [] => Ret []
  | arg :: args' =>
      this ← EmptyObservable.create arg;
      rest ← create_each args';
      Ret (this :: rest)
  end.

(** What a scheduler does sooner or later with the calls it received:
    it runs [work(state)] for each, here in the order of the list. *)
Fixpoint run_scheduled (cs : list call) : prog unit :=
  match cs with
  | [] => Ret tt
  | schedule_call _ work _ state :: cs' => work state;; run_scheduled cs'
  | _ :: cs' => run_scheduled cs'
  end.

(** The subscriber held by the state of a scheduled call. *)
Definition scheduled_subscriber (c : call) : option Subscriber :=
  match c with
  | schedule_call _ _ _ state => Some (subscriber state)
  | _ => None
  end.

(** ** A concrete scene *)

(** Two producers, as [create()] and [create(scheduler)] leave them, the
    scheduler being the object 9. *)
Definition two_producers : heap :=
  [{| class_of := C_EmptyObservable; scheduler := undefined |};
   {| class_of := C_EmptyObservable; scheduler := object 9 |}].

(** The handler set [{ complete: fn }]. *)
Definition complete_only : Core.Handlers :=
  {| Core.has_next := false; Core.has_error := false;
     Core.has_complete := true |}.

Definition fresh_consumer : Core.Consumer :=
  {| Core.handlers := complete_only; Core.stopped := false;
     Core.closed := false; Core.children := [] |}.

(** A world with one consumer, the object 0, made from that handler set,
    every scheduler idle at time 0. *)
Definition one_consumer : Core.World :=
  {| Core.consumers := {[ 0 := fresh_consumer ]}; Core.clocks := ∅;
     Core.pending := []; Core.running := []; Core.next_loc := 1;
     Core.delivered := [] |}.

(** * Properties of the class

    These hold in every environment [E]: whatever the subscriber and the
    scheduler do when called. *)

Section Runs.

Context {W : Type} (E : env W).

Lemma run_bind {A B} (p : prog A) (f : A -> prog B) σ w :
  run E (p ≫= f) σ w =
  o ← run E p σ w;
  and_then o <$> run E (f (result o)) (final_heap o) (final_world o).
Proof.
  unfold mbind, prog_bind.
  revert B f σ w.
  induction p as [A r|A c k IH|A this k IH|A this v k IH|A s v k IH
                 |A s e k IH|A s k IH|A recv work _ delay st k IH];
    intros B f σ w; simpl.
  - by destruct (run E (f r) σ w) as [[]|].
  - apply IH.
  - destruct (σ !! this); [apply IH|done].
  - destruct (σ !! this); [apply IH|done].
  - rewrite IH. destruct (run E k σ _) as [o|]; simpl; [|done].
    by destruct (run E (f _) _ _).
  - rewrite IH. destruct (run E k σ _) as [o|]; simpl; [|done].
    by destruct (run E (f _) _ _).
  - rewrite IH. destruct (run E k σ _) as [o|]; simpl; [|done].
    by destruct (run E (f _) _ _).
  - destruct recv as [| |sch]; try done.
    destruct (on_schedule E sch work delay st w) as [w' h].
    rewrite IH. destruct (run E (k h) σ w') as [o|]; simpl; [|done].
    by destruct (run E (f _) _ _).
Qed.

End Runs.

Section Class.

Import EmptyObservable.
Context {W : Type} (E : env W).

(** What [_subscribe] does in either branch, as an equation. *)
Lemma run_subscribe σ w this o sub :
  σ !! this = Some o ->
  run E (_subscribe this sub) σ w =
  Some (match scheduler o with
        | object sch =>
            let r := on_schedule E sch dispatch 0%Z {| subscriber := sub |} w in
            {| calls := [schedule_call sch dispatch 0%Z {| subscriber := sub |}];
               final_heap := σ; final_world := r.1; result := object r.2 |}
        | undefined | null =>
            {| calls := [complete_call sub]; final_heap := σ;
               final_world := on_complete E sub w; result := undefined |}
        end).
Proof.
  intros Hthis. unfold _subscribe, get_scheduler; simpl. rewrite Hthis.
  destruct (scheduler o) as [| |sch]; simpl; try reflexivity.
  by destruct (on_schedule E sch dispatch 0%Z _ w).
Qed.

Lemma run_dispatch (state : DispatchState) σ w :
  run E (dispatch state) σ w =
  Some {| calls := [complete_call (subscriber state)];
          final_heap := σ;
          final_world := on_complete E (subscriber state) w;
          result := tt |}.
Proof. unfold dispatch, complete. reflexivity. Qed.

Lemma run_create arg σ w :
  run E (create arg) σ w =
  Some {| calls := [];
          final_heap :=
            σ ++ [{| class_of := C_EmptyObservable; scheduler := param arg |}];
          final_world := w; result := length σ |}.
Proof.
  unfold create, new, constructor, Observable_constructor; simpl.
  rewrite lookup_app_r, Nat.sub_diag by lia; simpl.
  rewrite insert_app_r_alt, Nat.sub_diag by lia. reflexivity.
Qed.

Local Ltac run_first :=
  rewrite run_bind, run_create;
  cbn [mbind option_bind result final_heap final_world].

Lemma run_subscribe_each σ w this o subs :
  σ !! this = Some o ->
  ∃ out,
    run E (subscribe_each this subs) σ w = Some out ∧
    final_heap out = σ ∧
    calls out = attachment_call (scheduler o) <$> subs.
Proof.
  intros Hthis. revert w.
  induction subs as [|sub subs IH]; intros w; cbn [subscribe_each].
  - eexists; split; [reflexivity|done].
  - rewrite run_bind, (run_subscribe _ _ _ _ _ Hthis); cbn [mbind option_bind].
    set (o1 := match scheduler o with undefined => _ | _ => _ end).
    assert (Hh : final_heap o1 = σ) by (subst o1; by destruct (scheduler o)).
    assert (Hc : calls o1 = [attachment_call (scheduler o) sub])
      by (subst o1; by destruct (scheduler o)).
    rewrite run_bind, Hh.
    destruct (IH (final_world o1)) as (out & -> & Hheap & Hcalls); simpl.
    eexists; split; [reflexivity|]; simpl.
    rewrite Hheap, Hc, Hcalls, app_nil_r. done.
Qed.

Lemma member_keeps_heap m σ w out :
  run E (member m) σ w = Some out -> σ `prefix_of` final_heap out.
Proof.
  destruct m as [arg|this sub|state]; cbn [member].
  - run_first. intros [= <-]. by eexists.
  - rewrite run_bind. destruct (σ !! this) as [o|] eqn:Hthis.
    + rewrite (run_subscribe _ _ _ _ _ Hthis).
      intros [= <-]. by destruct (scheduler o).
    + unfold _subscribe, get_scheduler; simpl. by rewrite Hthis.
  - rewrite run_dispatch. by intros [= <-].
Qed.

Lemma members_keep_heap ms σ w out :
  run E (members ms) σ w = Some out -> σ `prefix_of` final_heap out.
Proof.
  revert σ w out. induction ms as [|m ms IH]; intros σ w out;
    cbn [members].
  - by intros [= <-].
  - rewrite run_bind.
    destruct (run E (member m) σ w) as [o|] eqn:Hm; [|done].
    cbn [mbind option_bind].
    destruct (run E (members ms) _ _) as [o'|] eqn:Hms; [|done].
    intros [= <-]. simpl.
    etrans; [by eapply member_keeps_heap|by eapply IH].
Qed.

(** C2, as amended: subscribing to a producer that holds a scheduler
    makes exactly one call, [scheduler.schedule(dispatch, 0, { subscriber })],
    and [_subscribe] returns the handle that call returned, leaves the
    heap as it was, and itself calls no method of the subscriber; this
    for every subscriber and every scheduler ([calls] are the calls
    [_subscribe] makes, and what the scheduler does while it answers
    [schedule] is [on_schedule E]).  Whether a subscriber method has been
    invoked when [_subscribe] returns is up to the scheduler: with the
    deferred scheduler of [Core] none has, the work is only queued; with
    the immediate one of section 4.4 of the specification [complete()]
    has run. *)
Theorem subscribe_with_scheduler σ w this sch sub :
  constructed_with σ this (object sch) ->
  (∃ out,
     run E (_subscribe this sub) σ w = Some out ∧
     calls out = [schedule_call sch dispatch 0%Z {| subscriber := sub |}] ∧
     result out =
       object (on_schedule E sch dispatch 0%Z {| subscriber := sub |} w).2 ∧
     final_world out =
       (on_schedule E sch dispatch 0%Z {| subscriber := sub |} w).1 ∧
     final_heap out = σ ∧
     filter (fun c => is_subscriber_call c = true) (calls out) = []) ∧
  (∀ cw,
     schedules_without_notifying Core.world_env σ cw this sch sub ∧
     ∃ out,
       run Core.world_env (_subscribe this sub) σ cw = Some out ∧
       Core.pending (final_world out) = Core.pending cw ++ [scheduled sch sub cw]).
Proof.
  intros Hthis. split.
  - rewrite (run_subscribe _ _ _ _ _ Hthis); simpl.
    eexists; split; [reflexivity|]. by repeat split.
  - intros cw. unfold schedules_without_notifying, _subscribe, get_scheduler.
    simpl. rewrite Hthis. simpl.
    split; (eexists; split; [reflexivity|]); by repeat split.
Qed.

(** C4: [dispatch] calls [complete()] on the subscriber held by its
    state, once, and does nothing else: no other call on the subscriber,
    no call on a scheduler, no change to the heap, and no change to the
    world beyond what that one [complete()] does. *)
Theorem dispatch_only_completes (state : DispatchState) σ w :
  run E (dispatch state) σ w =
  Some {| calls := [complete_call (subscriber state)];
          final_heap := σ;
          final_world := on_complete E (subscriber state) w;
          result := tt |} ∧
  ∀ out,
    run E (dispatch state) σ w = Some out ->
    filter (fun c => is_schedule_call c = true) (calls out) = [] ∧
    filter (fun c => is_subscriber_call c = true) (calls out) =
      [complete_call (subscriber state)].
Proof.
  split; [apply run_dispatch|].
  intros out. rewrite run_dispatch. by intros [= <-].
Qed.

(** C5: whatever scheduler value the producer holds, an attachment calls
    neither [next] nor [error], and neither does any work it handed to a
    scheduler when that work is run later, nor [dispatch] itself. *)
Theorem never_next_nor_error σ w this o sub :
  σ !! this = Some o ->
  ∃ out,
    run E (_subscribe this sub) σ w = Some out ∧
    only_completion (calls out) ∧
    (∀ sch work delay state σ' w',
       schedule_call sch work delay state ∈ calls out ->
       ∃ out',
         run E (work state) σ' w' = Some out' ∧
         only_completion (calls out')) ∧
    (∀ state σ' w',
       ∃ out',
         run E (dispatch state) σ' w' = Some out' ∧
         only_completion (calls out')).
Proof.
  intros Hthis. rewrite (run_subscribe _ _ _ _ _ Hthis).
  eexists; split; [reflexivity|].
  assert (Hd : ∀ state σ' w',
    ∃ out', run E (dispatch state) σ' w' = Some out' ∧
            only_completion (calls out')).
  { intros st σ' w'. rewrite run_dispatch.
    eexists; split; [reflexivity|]. by repeat constructor. }
  split; [|split; [|exact Hd]].
  - destruct (scheduler o); by repeat constructor.
  - intros sch work delay st σ' w' Hin.
    destruct (scheduler o) as [| |sch0]; simpl in Hin;
      apply list_elem_of_singleton in Hin; try discriminate.
    injection Hin as -> -> -> ->. apply Hd.
Qed.

(** C6: [create] and the constructor call nothing, neither on a
    subscriber nor on a scheduler, and leave the world as it is; all they
    do is store the scheduler in the new instance.  Calls are made by
    [_subscribe] only. *)
Theorem construction_does_no_work (arg : option value) σ w :
  run E (create arg) σ w =
    Some {| calls := [];
            final_heap :=
              σ ++ [{| class_of := C_EmptyObservable; scheduler := param arg |}];
            final_world := w; result := length σ |} ∧
  run E (new arg) σ w =
    Some {| calls := [];
            final_heap :=
              σ ++ [{| class_of := C_EmptyObservable; scheduler := param arg |}];
            final_world := w; result := length σ |} ∧
  (∀ this o,
     σ !! this = Some o ->
     run E (constructor this arg) σ w =
       Some {| calls := [];
               final_heap :=
                 <[this := {| class_of := class_of o;
                              scheduler := param arg |}]> σ;
               final_world := w; result := tt |}) ∧
  (∀ sub, ∃ out,
     run E (this ← create arg; _subscribe this sub) σ w = Some out ∧
     calls out = [attachment_call (param arg) sub]).
Proof.
  split; [apply run_create|].
  split; [destruct arg; apply (run_create (Some _))|].
  split.
  - intros this o Hthis.
    unfold constructor, Observable_constructor; simpl. by rewrite Hthis.
  - intros sub. run_first.
    erewrite run_subscribe
      by (rewrite lookup_app_r, Nat.sub_diag by lia; reflexivity); simpl.
    eexists; split; [reflexivity|]. by destruct (param arg).
Qed.

(** C7: [_subscribe] never writes the instance: the heap after an
    attachment is the heap before it.  So any number of attachments, one
    after the other, all see the scheduler stored at construction, and
    each makes the call that scheduler value decides.  More generally no
    sequence of calls of the members of the class ([create], [_subscribe],
    [dispatch]) changes an instance that exists: the heap only grows. *)
Theorem producer_is_immutable σ this o :
  σ !! this = Some o ->
  (∀ sub w, ∃ out,
     run E (_subscribe this sub) σ w = Some out ∧
     final_heap out = σ ∧
     calls out = [attachment_call (scheduler o) sub]) ∧
  (∀ subs w, ∃ out,
     run E (subscribe_each this subs) σ w = Some out ∧
     final_heap out = σ ∧
     calls out = attachment_call (scheduler o) <$> subs) ∧
  (∀ ms w out,
     run E (members ms) σ w = Some out ->
     σ `prefix_of` final_heap out ∧ final_heap out !! this = Some o).
Proof.
  intros Hthis. split; [|split].
  - intros sub w. rewrite (run_subscribe _ _ _ _ _ Hthis).
    eexists; split; [reflexivity|]. by destruct (scheduler o).
  - intros subs w. by apply run_subscribe_each.
  - intros ms w out Hrun.
    destruct (members_keep_heap _ _ _ _ Hrun) as [σ' Hσ'].
    split; [by exists σ'|]. rewrite Hσ'. by apply lookup_app_l_Some.
Qed.

(** C8: [create] returns a reference that was not on the heap before, to
    an instance of [EmptyObservable], hence of [Observable], whose
    scheduler is the argument (or [undefined] when there is none); the
    instances that were there are untouched. *)
Theorem create_returns_observable (arg : option value) σ w :
  ∃ out o,
    run E (create arg) σ w = Some out ∧
    σ !! result out = None ∧
    final_heap out !! result out = Some o ∧
    class_of o = C_EmptyObservable ∧
    instanceof o C_Observable = true ∧
    scheduler o = param arg ∧
    constructed_with (final_heap out) (result out) (param arg) ∧
    (∀ l o', σ !! l = Some o' -> final_heap out !! l = Some o').
Proof.
  rewrite run_create. do 2 eexists; split; [reflexivity|]; simpl.
  assert (Hnew : ∀ x : instance, (σ ++ [x]) !! length σ = Some x)
    by (intros x; by rewrite lookup_app_r, Nat.sub_diag by lia).
  split; [by apply lookup_ge_None_2|].
  split; [apply Hnew|]. repeat split; [apply Hnew|].
  intros l o' Hl. by apply lookup_app_l_Some.
Qed.

(** C9: without a (truthy) scheduler [_subscribe] returns [undefined],
    with one it returns an object, the handle; so it returns a handle
    exactly when it took the scheduler branch. *)
Theorem subscribe_teardown σ w this o sub :
  σ !! this = Some o ->
  ∃ out,
    run E (_subscribe this sub) σ w = Some out ∧
    (truthy (scheduler o) = false -> result out = undefined) ∧
    (truthy (scheduler o) = true ->
     ∃ sch, scheduler o = object sch ∧
       result out =
         object (on_schedule E sch dispatch 0%Z {| subscriber := sub |} w).2) ∧
    (result out = undefined <-> truthy (scheduler o) = false).
Proof.
  intros Hthis. rewrite (run_subscribe _ _ _ _ _ Hthis).
  eexists; split; [reflexivity|].
  destruct (scheduler o) as [| |sch]; simpl; repeat split; try done.
  by exists sch.
Qed.

(** C10: [create()] and [create(undefined)] behave alike under
    [_subscribe]: the two runs are equal, and both call [complete()]
    once and return [undefined].  The branch is taken on the truthiness
    of the stored value, so [create(null)] completes at once as well. *)
Theorem create_undefined_is_create sub σ w :
  run E (this ← create None; _subscribe this sub) σ w =
  run E (this ← create (Some undefined); _subscribe this sub) σ w ∧
  run E (this ← create None; _subscribe this sub) σ w =
    Some {| calls := [complete_call sub];
            final_heap :=
              σ ++ [{| class_of := C_EmptyObservable; scheduler := undefined |}];
            final_world := on_complete E sub w;
            result := undefined |} ∧
  (∀ arg, truthy (param arg) = false ->
     ∃ out,
       run E (this ← create arg; _subscribe this sub) σ w = Some out ∧
       calls out = [complete_call sub] ∧
       final_world out = on_complete E sub w ∧
       result out = undefined).
Proof.
  split; [reflexivity|].
  assert (Hnew : ∀ x : instance, (σ ++ [x]) !! length σ = Some x)
    by (intros x; by rewrite lookup_app_r, Nat.sub_diag by lia).
  split.
  - run_first.
    by rewrite (run_subscribe _ _ _ _ _ (Hnew _)).
  - intros arg Hfalsy. run_first.
    rewrite (run_subscribe _ _ _ _ _ (Hnew _)); simpl.
    eexists; split; [reflexivity|].
    by destruct (param arg).
Qed.

End Class.

(** ** The class theorems at the concrete scene *)

(** The scene is what [create()] and then [create(scheduler)] build. *)
Example scene_is_created :
  final_heap <$>
    run Core.world_env
      (EmptyObservable.create None;;
       EmptyObservable.create (Some (object 9))) [] one_consumer =
  Some two_producers.
Proof. reflexivity. Qed.

Lemma subscribe_with_scheduler_witness :
  constructed_with two_producers 1 (object 9) ∧
  ∃ out,
    run Core.world_env (EmptyObservable._subscribe 1 0)
      two_producers one_consumer = Some out ∧
    calls out =
      [schedule_call 9 EmptyObservable.dispatch 0%Z {| subscriber := 0 |}] ∧
    result out = object 1 ∧
    final_heap out = two_producers.
Proof.
  split; [reflexivity|].
  destruct (subscribe_with_scheduler Core.world_env two_producers
              one_consumer 1 9 0 eq_refl)
    as [(out & Hrun & Hcalls & Hresult & _ & Hheap & _) _].
  exists out. by repeat split.
Defined.

(** C2 as the specification words it fails for the immediate scheduler of
    its section 4.4.  At the concrete scene, [_subscribe] on the producer
    that holds the scheduler 9 makes the one call to [schedule] and
    nothing else, and yet when it returns the complete handler of the
    subscriber has already been invoked: the scheduler ran [dispatch]
    while it answered the call. *)
Lemma immediate_scheduler_completes_at_once :
  constructed_with two_producers 1 (object 9) ∧
  (∃ out,
     run (Core.immediate_env two_producers) (EmptyObservable._subscribe 1 0)
       two_producers one_consumer = Some out ∧
     calls out =
       [schedule_call 9 EmptyObservable.dispatch 0%Z {| subscriber := 0 |}] ∧
     Core.delivered one_consumer = [] ∧
     Core.delivered (final_world out) = [Core.complete_handler 0]) ∧
  (schedules_without_notifying (Core.immediate_env two_producers)
     two_producers one_consumer 1 9 0 <-> False).
Proof.
  split; [reflexivity|]. split.
  - eexists. split; [reflexivity|]. by repeat split.
  - split; [|done].
    intros (out & Hrun & _ & _ & _ & Hdelivered).
    injection Hrun as <-. discriminate Hdelivered.
Qed.

Lemma never_next_nor_error_witness :
  two_producers !! 1 =
    Some {| class_of := C_EmptyObservable; scheduler := object 9 |} ∧
  ∃ out,
    run Core.world_env (EmptyObservable._subscribe 1 0)
      two_producers one_consumer = Some out ∧
    only_completion (calls out).
Proof.
  split; [reflexivity|].
  destruct (never_next_nor_error Core.world_env two_producers one_consumer
              1 _ 0 eq_refl) as (out & Hrun & Hcalls & _).
  by exists out.
Defined.

Lemma producer_is_immutable_witness :
  two_producers !! 0 =
    Some {| class_of := C_EmptyObservable; scheduler := undefined |} ∧
  ∃ out,
    run Core.world_env (subscribe_each 0 [0; 0; 5]) two_producers
      one_consumer = Some out ∧
    final_heap out = two_producers ∧
    calls out = [complete_call 0; complete_call 0; complete_call 5].
Proof.
  split; [reflexivity|].
  destruct (producer_is_immutable Core.world_env two_producers 0 _ eq_refl)
    as (_ & Heach & _).
  destruct (Heach [0; 0; 5] one_consumer) as (out & Hrun & Hheap & Hcalls).
  by exists out.
Defined.

Lemma subscribe_teardown_witness :
  two_producers !! 0 =
    Some {| class_of := C_EmptyObservable; scheduler := undefined |} ∧
  ∃ out,
    run Core.world_env (EmptyObservable._subscribe 0 0)
      two_producers one_consumer = Some out ∧
    result out = undefined.
Proof.
  split; [reflexivity|].
  destruct (subscribe_teardown Core.world_env two_producers one_consumer
              0 _ 0 eq_refl) as (out & Hrun & Hfalsy & _).
  exists out. split; [exact Hrun|]. by apply Hfalsy.
Defined.

(** * Properties in the core world

    The class run against the consumer, the subscription and the
    scheduler of [Core]. *)

Section Subscriptions.

Import Core EmptyObservable.

(** ** Closing and cancelling *)

Lemma cancel_idle h w : pending w = [] -> cancel h w = w.
Proof. destruct w; simpl; intros ->; reflexivity. Qed.

Lemma cancel_all_consumers us w :
  consumers (foldl (fun w u => cancel u w) w us) = consumers w.
Proof. revert w; induction us as [|u us IH]; intros w; simpl; [done|by rewrite IH]. Qed.

Lemma cancel_all_delivered us w :
  delivered (foldl (fun w u => cancel u w) w us) = delivered w.
Proof. revert w; induction us as [|u us IH]; intros w; simpl; [done|by rewrite IH]. Qed.

Lemma cancel_all_clocks us w :
  clocks (foldl (fun w u => cancel u w) w us) = clocks w.
Proof. revert w; induction us as [|u us IH]; intros w; simpl; [done|by rewrite IH]. Qed.

Lemma cancel_all_idle us w :
  pending w = [] -> foldl (fun w u => cancel u w) w us = w.
Proof.
  revert w; induction us as [|u us IH]; intros w Hw; simpl; [done|].
  rewrite (cancel_idle _ _ Hw). by apply IH.
Qed.

Lemma survives_self h a : id a = h -> survives h a = false.
Proof. intros <-. unfold survives. by rewrite bool_decide_eq_true_2. Qed.

Lemma cancel_singleton h a w :
  pending w = [a] ->
  pending (cancel h w) = if survives h a then [a] else [].
Proof.
  intros Hp. unfold cancel; cbn [pending set_pending].
  rewrite Hp, filter_cons, filter_nil.
  destruct (survives h a); [by rewrite decide_True|by rewrite decide_False].
Qed.

(** Cancelling a handle removes the action it names, wherever it is. *)
Lemma cancel_all_removes us h a w :
  h ∈ us -> pending w = [a] -> id a = h ->
  pending (foldl (fun w u => cancel u w) w us) = [].
Proof.
  intros Hin Hp Hid.
  assert (Hnil : ∀ us w, pending w = [] ->
            pending (foldl (fun w u => cancel u w) w us) = []).
  { intros us' w' Hw'. by rewrite cancel_all_idle. }
  revert w Hp. induction us as [|u us IH]; intros w Hp; simpl.
  - by apply elem_of_nil in Hin.
  - pose proof (cancel_singleton u a w Hp) as Hc.
    destruct (survives u a) eqn:Hs; [|by apply Hnil].
    apply IH; [|done].
    apply elem_of_cons in Hin as [->|Hin]; [|done].
    by rewrite survives_self in Hs.
Qed.

Lemma Forall_filter_keep {A} (P : A -> Prop) (f : A -> Prop)
    `{∀ x, Decision (f x)} (l : list A) :
  Forall P l -> Forall P (filter f l).
Proof.
  induction 1 as [|x l Hx _ IH]; [constructor|].
  rewrite filter_cons. destruct (decide (f x)); [by constructor|done].
Qed.

Lemma filter_none {A} (f : A -> Prop) `{∀ x, Decision (f x)} (l : list A) :
  Forall (fun x => ¬ f x) l -> filter f l = [].
Proof.
  induction 1 as [|x l Hx _ IH]; [done|].
  rewrite filter_cons. by destruct (decide (f x)).
Qed.

Lemma cancel_all_keeps (P : Action -> Prop) us w :
  Forall P (pending w) ->
  Forall P (pending (foldl (fun w u => cancel u w) w us)).
Proof.
  revert w; induction us as [|u us IH]; intros w Hw; simpl; [done|].
  apply IH. simpl. by apply Forall_filter_keep.
Qed.

(** A closed consumer stays as it is: [close] is idempotent. *)
Lemma close_closed s c w :
  consumers w !! s = Some c -> closed c = true -> close s w = w.
Proof. intros Hs Hc. unfold close, close_consumer. by rewrite Hs, Hc. Qed.

(** What [complete()] does to an active consumer. *)
Lemma complete_active s c w :
  consumers w !! s = Some c -> stopped c = false -> closed c = false ->
  consumer_complete s w =
  foldl (fun w u => cancel u w)
    (set_consumers
       (<[s := {| handlers := handlers c; stopped := true; closed := true;
                  children := [] |}]> (consumers w))
       (if has_complete (handlers c)
        then deliver (complete_handler s) w else w))
    (children c).
Proof.
  intros Hs Hst Hcl. unfold consumer_complete. rewrite Hs, Hst.
  unfold close, close_consumer.
  destruct (has_complete (handlers c)); simpl;
    rewrite lookup_insert_eq; simpl; rewrite Hcl;
    by rewrite insert_insert_eq.
Qed.

Lemma now_tick sch d w : now sch (tick sch d w) = now sch w + d.
Proof. unfold now at 1, tick; simpl. by rewrite lookup_insert_eq. Qed.

(** ** The world with nothing pending *)

Lemma next_action_idle sch w : pending w = [] -> next_action sch w = None.
Proof. unfold next_action. by intros ->. Qed.

Lemma step_idle st st' :
  step st st' -> pending st.2 = [] ->
  pending st'.2 = [] ∧ delivered st'.2 = delivered st.2.
Proof.
  intros [σ w sch d|σ w sch a σ' w' Hnext _] Hidle; simpl in *; [done|].
  by rewrite next_action_idle in Hnext.
Qed.

(** Once nothing is pending, no handler is ever invoked again. *)
Lemma idle_forever st st' :
  rtc step st st' -> pending st.2 = [] ->
  pending st'.2 = [] ∧ delivered st'.2 = delivered st.2.
Proof.
  induction 1 as [|st st1 st2 Hstep _ IH]; intros Hidle; [done|].
  destruct (step_idle _ _ Hstep Hidle) as [Hidle1 Hd1].
  destruct (IH Hidle1) as [? ?]. split; [done|congruence].
Qed.

End Subscriptions.

Section Silence.

Import Core EmptyObservable.

(** ** A consumer that has stopped hears nothing more *)

Lemma close_delivered x w : delivered (close x w) = delivered w.
Proof.
  unfold close, close_consumer. destruct (consumers w !! x) as [c|]; [|done].
  destruct (closed c); [done|]. by rewrite cancel_all_delivered.
Qed.

Lemma close_other x s w :
  x ≠ s -> consumers (close x w) !! s = consumers w !! s.
Proof.
  intros Hne. unfold close, close_consumer.
  destruct (consumers w !! x) as [c|]; [|done].
  destruct (closed c); [done|].
  rewrite cancel_all_consumers. simpl. by rewrite lookup_insert_ne.
Qed.

Lemma notifications_deliver s n w :
  notifications_of s (deliver n w) =
  notifications_of s w ++ (if about s n then [n] else []).
Proof.
  unfold notifications_of; simpl. rewrite filter_app, filter_cons, filter_nil.
  destruct (about s n); [by rewrite decide_True|by rewrite decide_False].
Qed.

Context (sub : Subscriber) (c : Consumer).
Hypothesis Hstopped : stopped c = true.

(** [w'] has the consumer as it was in [w], and nothing more was delivered
    to its handlers. *)
Local Abbreviation unheard w w' :=
  (consumers w' !! sub = Some c ∧
   notifications_of sub w' = notifications_of sub w).

Lemma next_silent s v w :
  consumers w !! sub = Some c -> unheard w (consumer_next s v w).
Proof using Hstopped.
  intros Hsub. unfold consumer_next.
  destruct (decide (s = sub)) as [->|Hne].
  - by rewrite Hsub, Hstopped.
  - destruct (consumers w !! s) as [c'|]; [|done].
    destruct (stopped c'); [done|].
    destruct (has_next (handlers c')); [|done].
    split; [done|]. rewrite notifications_deliver; simpl.
    rewrite bool_decide_eq_false_2 by done. apply app_nil_r.
Qed.

Lemma error_silent s e w :
  consumers w !! sub = Some c -> unheard w (consumer_error s e w).
Proof using Hstopped.
  intros Hsub. unfold consumer_error.
  destruct (decide (s = sub)) as [->|Hne].
  - by rewrite Hsub, Hstopped.
  - destruct (consumers w !! s) as [c'|]; [|done].
    destruct (stopped c'); [done|].
    split.
    + rewrite close_other by done. simpl. by rewrite lookup_insert_ne.
    + unfold notifications_of. rewrite close_delivered.
      fold (notifications_of sub (deliver
        (if has_error (handlers c') then error_handler s e
         else unhandled_error s e) (stop s c' w))).
      rewrite notifications_deliver.
      destruct (has_error (handlers c')); simpl;
        rewrite bool_decide_eq_false_2 by done; apply app_nil_r.
Qed.

Lemma complete_silent s w :
  consumers w !! sub = Some c -> unheard w (consumer_complete s w).
Proof using Hstopped.
  intros Hsub. unfold consumer_complete.
  destruct (decide (s = sub)) as [->|Hne].
  - by rewrite Hsub, Hstopped.
  - destruct (consumers w !! s) as [c'|]; [|done].
    destruct (stopped c'); [done|].
    split.
    + rewrite close_other by done.
      destruct (has_complete (handlers c')); simpl; by rewrite lookup_insert_ne.
    + unfold notifications_of. rewrite close_delivered.
      destruct (has_complete (handlers c')); [|done].
      fold (notifications_of sub (deliver (complete_handler s) (stop s c' w))).
      rewrite notifications_deliver; simpl.
      rewrite bool_decide_eq_false_2 by done. apply app_nil_r.
Qed.

(** A consumer that has stopped hears nothing more, whatever runs. *)
Lemma run_silent {R} (p : prog R) σ w out :
  consumers w !! sub = Some c ->
  run world_env p σ w = Some out ->
  unheard w (final_world out).
Proof using Hstopped.
  revert σ w out.
  induction p as [R r|R cl k IH|R this k IH|R this v k IH|R s v k IH
                 |R s e k IH|R s k IH|R recv work _ delay st k IH];
    intros σ w out Hsub Hrun; simpl in Hrun.
  - by injection Hrun as <-.
  - by eapply IH.
  - destruct (σ !! this); [by eapply IH|done].
  - destruct (σ !! this); [by eapply IH|done].
  - destruct (run world_env k σ _) as [o|] eqn:Hk; [|done].
    injection Hrun as <-; simpl.
    destruct (next_silent s v w Hsub) as [Hsub' Hn].
    destruct (IH _ _ _ Hsub' Hk) as [? ?]. split; [done|congruence].
  - destruct (run world_env k σ _) as [o|] eqn:Hk; [|done].
    injection Hrun as <-; simpl.
    destruct (error_silent s e w Hsub) as [Hsub' Hn].
    destruct (IH _ _ _ Hsub' Hk) as [? ?]. split; [done|congruence].
  - destruct (run world_env k σ _) as [o|] eqn:Hk; [|done].
    injection Hrun as <-; simpl.
    destruct (complete_silent s w Hsub) as [Hsub' Hn].
    destruct (IH _ _ _ Hsub' Hk) as [? ?]. split; [done|congruence].
  - destruct recv as [| |sch]; try done.
    destruct (run world_env (k _) σ _) as [o|] eqn:Hk; [|done].
    injection Hrun as <-; simpl.
    eapply IH in Hk; [exact Hk|exact Hsub].
Qed.

Lemma step_silent st st' :
  step st st' ->
  consumers st.2 !! sub = Some c ->
  unheard st.2 st'.2.
Proof using Hstopped.
  intros [σ w sch d|σ w sch a σ' w' _ Hfire] Hsub; simpl in *; [done|].
  unfold fire in Hfire.
  destruct (run world_env _ σ _) as [out|] eqn:Hrun; [|done].
  injection Hfire as <- <-. simpl.
  eapply run_silent in Hrun; [exact Hrun|exact Hsub].
Qed.

Lemma silent_forever st st' :
  rtc step st st' ->
  consumers st.2 !! sub = Some c ->
  unheard st.2 st'.2.
Proof using Hstopped.
  induction 1 as [|st st1 st2 Hstep _ IH]; intros Hsub; [done|].
  destruct (step_silent _ _ Hstep Hsub) as [Hsub1 Hn1].
  destruct (IH Hsub1) as [? ?]. split; [done|congruence].
Qed.

End Silence.

Section Consistency.

Import Core EmptyObservable.

(** ** Every consumer is active or has ended

    [stopped] and [closed] go together in every world that the operations
    of the core can reach: the two flags are one state, active or ended. *)

Lemma cancel_all_consistent us w :
  consistent w -> consistent (foldl (fun w u => cancel u w) w us).
Proof. unfold consistent. by rewrite cancel_all_consumers. Qed.

Lemma close_consistent x w : consistent w -> consistent (close x w).
Proof.
  intros Hw. unfold close, close_consumer.
  destruct (consumers w !! x) as [c|]; [|done].
  destruct (closed c); [done|].
  apply cancel_all_consistent. by apply map_Forall_insert_2.
Qed.

Lemma add_consistent parent u w : consistent w -> consistent (add parent u w).
Proof.
  intros Hw. unfold add. destruct u as [| |h]; try done.
  destruct (consumers w !! parent) as [c|] eqn:Hc; [|done].
  destruct (closed c) eqn:Hcl; [done|].
  apply map_Forall_insert_2; [|done]. simpl.
  by rewrite (map_Forall_lookup_1 _ _ _ _ Hw Hc).
Qed.

Lemma next_consistent s v w : consistent w -> consistent (consumer_next s v w).
Proof.
  intros Hw. unfold consumer_next.
  destruct (consumers w !! s) as [c|]; [|done].
  destruct (stopped c); [done|]. by destruct (has_next (handlers c)).
Qed.

Lemma stop_then_close s c n w :
  consistent w ->
  consistent (close s (from_option (fun n => deliver n (stop s c w)) (stop s c w) n)).
Proof.
  intros Hw. unfold close, close_consumer.
  replace (consumers (from_option _ (stop s c w) n) !! s)
    with (Some {| handlers := handlers c; stopped := true;
                  closed := closed c; children := children c |})
    by (destruct n; simpl; by rewrite lookup_insert_eq).
  cbn [closed]. destruct (closed c) eqn:Hcl.
  - destruct n; (apply map_Forall_insert_2; [by rewrite Hcl|done]).
  - apply cancel_all_consistent. unfold consistent.
    destruct n; simpl; rewrite insert_insert_eq;
      by apply map_Forall_insert_2.
Qed.

Lemma error_consistent s e w : consistent w -> consistent (consumer_error s e w).
Proof.
  intros Hw. unfold consumer_error.
  destruct (consumers w !! s) as [c|] eqn:Hc; [|done].
  destruct (stopped c) eqn:Hst; [done|].
  apply (stop_then_close s c (Some _) w Hw).
Qed.

Lemma complete_consistent s w : consistent w -> consistent (consumer_complete s w).
Proof.
  intros Hw. unfold consumer_complete.
  destruct (consumers w !! s) as [c|] eqn:Hc; [|done].
  destruct (stopped c) eqn:Hst; [done|].
  destruct (has_complete (handlers c)).
  - apply (stop_then_close s c (Some (complete_handler s)) w Hw).
  - apply (stop_then_close s c None w Hw).
Qed.

Lemma run_consistent {R} (p : prog R) σ w out :
  consistent w ->
  run world_env p σ w = Some out ->
  consistent (final_world out).
Proof.
  revert σ w out.
  induction p as [R r|R cl k IH|R this k IH|R this v k IH|R s v k IH
                 |R s e k IH|R s k IH|R recv work _ delay st k IH];
    intros σ w out Hw Hrun; simpl in Hrun.
  - by injection Hrun as <-.
  - by eapply IH.
  - destruct (σ !! this); [by eapply IH|done].
  - destruct (σ !! this); [by eapply IH|done].
  - destruct (run world_env k σ _) as [o|] eqn:Hk; [|done].
    injection Hrun as <-. simpl. eapply IH in Hk; [exact Hk|].
    by apply next_consistent.
  - destruct (run world_env k σ _) as [o|] eqn:Hk; [|done].
    injection Hrun as <-. simpl. eapply IH in Hk; [exact Hk|].
    by apply error_consistent.
  - destruct (run world_env k σ _) as [o|] eqn:Hk; [|done].
    injection Hrun as <-. simpl. eapply IH in Hk; [exact Hk|].
    by apply complete_consistent.
  - destruct recv as [| |sch]; try done.
    destruct (run world_env (k _) σ _) as [o|] eqn:Hk; [|done].
    injection Hrun as <-. simpl. eapply IH in Hk; [exact Hk|exact Hw].
Qed.

Lemma step_consistent st st' :
  step st st' -> consistent st.2 -> consistent st'.2.
Proof.
  intros [σ w sch d|σ w sch a σ' w' _ Hfire] Hw; simpl in *; [done|].
  unfold fire in Hfire.
  destruct (run world_env _ σ _) as [out|] eqn:Hrun; [|done].
  injection Hfire as <- <-.
  eapply run_consistent in Hrun; [exact Hrun|exact Hw].
Qed.

Lemma subscribe_consistent this sub σ w σ' w' s :
  consistent w ->
  subscribe this sub σ w = Some (σ', w', s) ->
  consistent w'.
Proof.
  intros Hw. unfold subscribe.
  destruct (run world_env _ σ w) as [out|] eqn:Hrun; [|done].
  intros [= <- <- <-]. apply add_consistent. by eapply run_consistent.
Qed.

Lemma toSubscriber_consistent hs w :
  consistent w -> consistent (toSubscriber hs w).1.
Proof. intros Hw. by apply map_Forall_insert_2. Qed.

(** Whatever is attached, closed and stepped, the flags stay together. *)
Lemma consistent_forever st st' :
  rtc step st st' -> consistent st.2 -> consistent st'.2.
Proof.
  induction 1 as [|st st1 st2 Hstep _ IH]; [done|].
  intros Hw. apply IH. by eapply step_consistent.
Qed.

End Consistency.

Section Attachments.

Import Core EmptyObservable.

(** ** Attaching without a scheduler *)

Lemma subscribe_sync σ w this v sub c :
  constructed_with σ this v -> truthy v = false ->
  consumers w !! sub = Some c -> stopped c = closed c ->
  ∃ w',
    subscribe this sub σ w = Some (σ, w', sub) ∧
    delivered w' =
      delivered w ++
      (if stopped c then []
       else if has_complete (handlers c) then [complete_handler sub]
       else []) ∧
    close sub w' = w'.
Proof.
  intros Hthis Hv Hsub Hwf. unfold subscribe.
  rewrite (run_subscribe _ _ _ _ _ _ Hthis); cbn [scheduler].
  destruct v as [| |sch]; try discriminate;
    cbn [mbind option_bind final_heap final_world result add on_complete
         world_env];
    (eexists; split; [reflexivity|]);
    (destruct (stopped c) eqn:Hst; symmetry in Hwf;
     [ unfold consumer_complete; rewrite Hsub, Hst, app_nil_r;
       split; [done|by apply (close_closed _ c)]
     | rewrite (complete_active _ _ _ Hsub Hst Hwf),
         cancel_all_delivered; split;
       [ by destruct (has_complete (handlers c)); simpl;
           rewrite ?app_nil_r
       | eapply close_closed;
         [rewrite cancel_all_consumers; apply lookup_insert_eq|done] ] ]).
Qed.

(** C1: a producer without a (truthy) scheduler, when subscribed to,
    calls [complete()] on the subscriber once, before it returns, and
    hands back no teardown; this whatever the subscriber does when
    called.  In the core world, for a consumer that is active or has
    ended (as every consumer of a [consistent] world is), the complete
    handler has then run once if the consumer was still active (not at
    all if it had ended before), and closing the Subscription that
    [subscribe] returns changes nothing.  The same holds when [subscribe]
    is given a raw handler set. *)
Theorem subscribe_without_scheduler {W : Type} (E : env W) (e : W)
    σ w this v sub c :
  constructed_with σ this v -> truthy v = false ->
  consumers w !! sub = Some c -> stopped c = closed c ->
  run E (_subscribe this sub) σ e =
    Some {| calls := [complete_call sub]; final_heap := σ;
            final_world := on_complete E sub e; result := undefined |} ∧
  (∃ w',
     subscribe this sub σ w = Some (σ, w', sub) ∧
     delivered w' =
       delivered w ++
       (if stopped c then []
        else if has_complete (handlers c) then [complete_handler sub]
        else []) ∧
     close sub w' = w') ∧
  (∀ hs, ∃ w' s,
     subscribe_handlers this hs σ w = Some (σ, w', s) ∧
     delivered w' =
       delivered w ++ (if has_complete hs then [complete_handler s] else []) ∧
     close s w' = w').
Proof.
  intros Hthis Hv Hsub Hwf. split; [|split].
  - rewrite (run_subscribe _ _ _ _ _ _ Hthis); cbn [scheduler].
    by destruct v.
  - by apply (subscribe_sync _ _ _ v).
  - intros hs. unfold subscribe_handlers, toSubscriber.
    destruct (subscribe_sync σ (toSubscriber hs w).1 this v (next_loc w)
                {| handlers := hs; stopped := false; closed := false;
                   children := [] |} Hthis Hv)
      as (w' & Hsubscribe & Hd & Hclose);
      [apply lookup_insert_eq|reflexivity|].
    exists w', (next_loc w). split; [exact Hsubscribe|]. by split.
Qed.

(** ** Attaching with a scheduler *)

Section Deferred.

Context (σ : heap) (w : World) (this : loc) (sch : Scheduler).
Context (sub : Subscriber) (c : Consumer).
Hypothesis Hthis : constructed_with σ this (object sch).
Hypothesis Hidle : pending w = [].
Hypothesis Hsub : consumers w !! sub = Some c.
Hypothesis Hactive : stopped c = false ∧ closed c = false.
Hypothesis Hhandler : has_complete (handlers c) = true.

Local Abbreviation a := (scheduled sch sub w).
Local Abbreviation c1 := (attached c (next_loc w)).
Local Abbreviation w1 := (attachment sch sub c w).

Lemma subscribe_deferred : subscribe this sub σ w = Some (σ, w1, sub).
Proof using Hthis Hsub Hactive.
  unfold subscribe. rewrite (run_subscribe _ _ _ _ _ _ Hthis).
  cbn [scheduler mbind option_bind final_heap final_world result add
       on_schedule world_env].
  unfold add. cbn [scheduler_schedule fst snd consumers set_next_loc
                   set_pending].
  rewrite Hsub. unfold attachment, attached.
  by destruct Hactive as [_ ->].
Qed.

(** *** With nothing else pending *)

Lemma waiting_after_subscribe : waiting a sub c1 (delivered w) w1.
Proof using Hidle.
  unfold waiting, attachment; simpl. rewrite Hidle.
  split; [done|split; [done|apply lookup_insert_eq]].
Qed.

Lemma fire_waiting σ' w' :
  waiting a sub c1 (delivered w) w' ->
  ∃ w'', fire a σ' w' = Some (σ', w'') ∧ completed sub (delivered w) w''.
Proof using Hactive Hhandler.
  intros (Hp & Hd & Hc). unfold fire.
  change (work a (state a)) with (dispatch {| subscriber := sub |}).
  rewrite run_dispatch.
  cbn [mbind option_bind final_heap final_world on_complete world_env
       subscriber].
  eexists; split; [reflexivity|].
  destruct Hactive as [Hst Hcl].
  erewrite complete_active; [|exact Hc|exact Hst|exact Hcl].
  cbn [handlers attached]. rewrite Hhandler.
  assert (Hnil : filter (fun b => negb (bool_decide (id b = id a)) = true)
                   (pending w') = []).
  { rewrite Hp, filter_cons, filter_nil.
    rewrite decide_False; [done|]. by rewrite bool_decide_eq_true_2. }
  unfold completed. cbn [pending delivered set_running].
  rewrite cancel_all_idle by (simpl; exact Hnil).
  simpl. split; [exact Hnil|by rewrite Hd].
Qed.

Lemma next_action_waiting sch' w' a' :
  pending w' = [a] -> next_action sch' w' = Some a' -> a' = a.
Proof.
  unfold next_action. intros ->. rewrite filter_cons, filter_nil.
  destruct (decide _); [|done]. simpl. congruence.
Qed.

Lemma step_waiting st st' :
  step st st' ->
  waiting a sub c1 (delivered w) st.2 ->
  waiting a sub c1 (delivered w) st'.2 ∨ completed sub (delivered w) st'.2.
Proof using Hactive Hhandler.
  intros [σ0 w0 sch' d|σ0 w0 sch' a' σ' w' Hnext Hfire] Hw; simpl in *.
  - by left.
  - right. destruct Hw as (Hp & Hd & Hc).
    apply (next_action_waiting _ _ _ Hp) in Hnext as ->.
    destruct (fire_waiting σ0 w0) as (w'' & Hfire' & Hdone); [done|].
    rewrite Hfire in Hfire'. by injection Hfire' as _ ->.
Qed.

(** However the world moves on, the handler has run at most once. *)
Lemma at_most_once st st' :
  rtc step st st' ->
  waiting a sub c1 (delivered w) st.2 ->
  delivered st'.2 = delivered w ∨
  delivered st'.2 = delivered w ++ [complete_handler sub].
Proof using Hactive Hhandler.
  induction 1 as [st|st st1 st2 Hstep Hrest IH]; intros Hw.
  - left. by destruct Hw as (_ & ? & _).
  - destruct (step_waiting _ _ Hstep Hw) as [Hw1|[Hidle1 Hd1]]; [by apply IH|].
    right. destruct (idle_forever _ _ Hrest Hidle1) as [_ ->]. done.
Qed.

(** Closing the Subscription of the attachment cancels the action. *)
Lemma close_attachment_idle :
  pending (close sub w1) = [] ∧ delivered (close sub w1) = delivered w.
Proof using Hidle Hactive.
  destruct waiting_after_subscribe as (Hp & Hd & Hc).
  unfold close, close_consumer. rewrite Hc.
  destruct Hactive as [_ Hcl]. cbn [closed attached]. rewrite Hcl.
  split; [|by rewrite cancel_all_delivered].
  apply (cancel_all_removes _ (id a) a); [|exact Hp|done].
  cbn [children]. apply elem_of_app; right. by apply list_elem_of_singleton.
Qed.

Lemma cancel_handle_idle :
  pending (cancel (id a) w1) = [] ∧ delivered (cancel (id a) w1) = delivered w.
Proof using Hidle.
  destruct waiting_after_subscribe as (Hp & Hd & Hc).
  split; [|done].
  by rewrite (cancel_singleton _ _ _ Hp), survives_self.
Qed.

(** *** With other work pending *)

Lemma fire_attached σ' w' :
  consumers w' !! sub = Some c1 ->
  ∃ w'' c'',
    fire a σ' w' = Some (σ', w'') ∧
    delivered w'' = delivered w' ++ [complete_handler sub] ∧
    consumers w'' !! sub = Some c'' ∧ stopped c'' = true ∧
    clocks w'' = clocks w' ∧
    ∀ P : Action -> Prop,
      Forall (fun b => id b ≠ id a -> P b) (pending w') ->
      Forall P (pending w'').
Proof using Hactive Hhandler.
  intros Hc. unfold fire.
  change (work a (state a)) with (dispatch {| subscriber := sub |}).
  rewrite run_dispatch.
  cbn [mbind option_bind final_heap final_world on_complete world_env
       subscriber].
  destruct Hactive as [Hst Hcl].
  erewrite complete_active; [|exact Hc|exact Hst|exact Hcl].
  cbn [handlers attached]. rewrite Hhandler.
  do 2 eexists. split; [reflexivity|].
  cbn [delivered consumers clocks pending set_running].
  rewrite cancel_all_delivered, cancel_all_consumers, cancel_all_clocks.
  split; [done|]. split; [apply lookup_insert_eq|].
  split; [done|]. split; [done|].
  intros P HP. apply cancel_all_keeps. simpl.
  induction HP as [|b q Hb _ IH]; [constructor|].
  rewrite filter_cons. destruct (decide _) as [Hne|]; [|done].
  constructor; [|done]. apply Hb.
  apply negb_true_iff, bool_decide_eq_false in Hne. exact Hne.
Qed.

Lemma advance_attached n d :
  nothing_due sch (now sch w + d) w ->
  ∃ w2 c2,
    advance (S n) sch d σ w1 = Some (σ, w2) ∧
    delivered w2 = delivered w ++ [complete_handler sub] ∧
    consumers w2 !! sub = Some c2 ∧ stopped c2 = true.
Proof using Hactive Hhandler.
  intros Hquiet. unfold advance. cbn [flush].
  assert (Hnot : Forall (fun b => ¬ (is_due sch (tick sch d w1) b = true))
                   (pending w)).
  { eapply Forall_impl; [exact Hquiet|]. intros b Hb. unfold is_due.
    rewrite now_tick. change (now sch w1) with (now sch w).
    destruct (decide (owner b = sch)) as [Ho|Ho].
    - rewrite (bool_decide_eq_false_2 (due b ≤ _)) by (specialize (Hb Ho); lia).
      by rewrite andb_false_r.
    - by rewrite (bool_decide_eq_false_2 (owner b = sch)). }
  assert (Hnext : next_action sch (tick sch d w1) = Some a).
  { unfold next_action; simpl. rewrite filter_app, (filter_none _ _ Hnot).
    rewrite filter_cons, filter_nil, decide_True; [done|].
    unfold is_due. rewrite now_tick. change (now sch w1) with (now sch w).
    rewrite !bool_decide_eq_true_2; [done|simpl; lia|done]. }
  rewrite Hnext.
  destruct (fire_attached σ (tick sch d w1))
    as (w2 & c2 & -> & Hd & Hc & Hst & Hclk & Hrest);
    [apply lookup_insert_eq|].
  cbn [mbind option_bind]. exists w2, c2.
  split; [|by repeat split]. destruct n; [done|]. cbn [flush].
  unfold next_action. rewrite filter_none; [done|].
  apply Hrest; simpl. apply Forall_app; split.
  - eapply Forall_impl; [exact Hquiet|]. intros b Hb _. unfold is_due, now.
    rewrite Hclk. fold (now sch (tick sch d w1)). rewrite now_tick.
    change (now sch w1) with (now sch w).
    destruct (decide (owner b = sch)) as [Ho|Ho].
    + rewrite (bool_decide_eq_false_2 (due b ≤ _)) by (specialize (Hb Ho); lia).
      by rewrite andb_false_r.
    + by rewrite (bool_decide_eq_false_2 (owner b = sch)).
  - by repeat constructor.
Qed.

Lemma close_attachment :
  ∃ c', consumers (close sub w1) !! sub = Some c' ∧ stopped c' = true ∧
        delivered (close sub w1) = delivered w.
Proof using Hactive.
  unfold close, close_consumer. unfold attachment at 1; simpl.
  rewrite lookup_insert_eq. destruct Hactive as [_ Hcl].
  cbn [closed attached]. rewrite Hcl.
  rewrite cancel_all_consumers, cancel_all_delivered; simpl.
  rewrite lookup_insert_eq. by eexists.
Qed.


End Deferred.

(** C3: subscribing to a producer that holds a scheduler, with an active
    consumer that has a complete handler, in a world whose schedulers are
    stepped by hand.  [subscribe] itself invokes no handler.  Advancing the
    scheduler, by the delay 0 or by more, with no other action of that
    scheduler due by then, invokes the complete handler exactly once, and
    the consumer hears nothing more however the world moves on.  If the
    Subscription that [subscribe] returned is closed first, the consumer
    never hears anything.  And when nothing else is pending in the world:
    however it is stepped the handler is invoked at most once, and never if
    the returned Subscription, or the handle the scheduler returned, was
    closed first. *)
Theorem deferred_completion σ w this sch sub c :
  constructed_with σ this (object sch) ->
  consumers w !! sub = Some c ->
  stopped c = false ∧ closed c = false ->
  has_complete (handlers c) = true ->
  ∃ w1 h,
    subscribe this sub σ w = Some (σ, w1, sub) ∧
    result <$> run world_env (_subscribe this sub) σ w = Some (object h) ∧
    delivered w1 = delivered w ∧
    (∀ n d, nothing_due sch (now sch w + d) w ->
       ∃ w2,
         advance (S n) sch d σ w1 = Some (σ, w2) ∧
         delivered w2 = delivered w ++ [complete_handler sub] ∧
         ∀ st, rtc step (σ, w2) st ->
           notifications_of sub st.2 = notifications_of sub w2) ∧
    (∀ st, rtc step (σ, close sub w1) st ->
       notifications_of sub st.2 = notifications_of sub w) ∧
    (pending w = [] ->
       (∀ st, rtc step (σ, w1) st ->
          delivered st.2 = delivered w ∨
          delivered st.2 = delivered w ++ [complete_handler sub]) ∧
       (∀ st, rtc step (σ, close sub w1) st -> delivered st.2 = delivered w) ∧
       (∀ st, rtc step (σ, cancel h w1) st -> delivered st.2 = delivered w)).
Proof.
  intros Hthis Hsub Hactive Hhandler.
  exists (attachment sch sub c w), (next_loc w).
  split; [by apply subscribe_deferred|].
  split; [by rewrite (run_subscribe _ _ _ _ _ _ Hthis)|].
  split; [done|]. split; [|split].
  - intros n d Hquiet.
    destruct (advance_attached σ w sch sub c Hactive Hhandler n d Hquiet)
      as (w2 & c2 & Hadv & Hd & Hc2 & Hst2).
    exists w2. split; [exact Hadv|]. split; [exact Hd|].
    intros st Hst.
    by destruct (silent_forever sub c2 Hst2 _ _ Hst Hc2).
  - intros st Hst.
    destruct (close_attachment w sch sub c Hactive) as (c' & Hc' & Hst' & Hd').
    destruct (silent_forever sub c' Hst' _ _ Hst Hc') as [_ ->].
    unfold notifications_of; cbn [snd]. by rewrite Hd'.
  - intros Hidle.
    pose proof (waiting_after_subscribe w sch sub c Hidle) as Hw.
    split; [|split].
    + intros st Hst.
      by apply (at_most_once w sch sub c Hactive Hhandler _ _ Hst).
    + intros st Hst.
      destruct (close_attachment_idle w sch sub c Hidle Hactive) as [Hp Hd].
      destruct (idle_forever _ _ Hst Hp) as [_ ->]. exact Hd.
    + intros st Hst.
      destruct (cancel_handle_idle w sch sub c Hidle) as [Hp Hd].
      destruct (idle_forever _ _ Hst Hp) as [_ ->]. exact Hd.
Qed.

End Attachments.

(** ** The world theorems at the concrete scene *)

Lemma subscribe_without_scheduler_witness :
  constructed_with two_producers 0 undefined ∧
  Core.consumers one_consumer !! 0 = Some fresh_consumer ∧
  ∃ w',
    Core.subscribe 0 0 two_producers one_consumer =
      Some (two_producers, w', 0) ∧
    Core.delivered w' = [Core.complete_handler 0] ∧
    Core.close 0 w' = w'.
Proof.
  split; [reflexivity|]. split; [reflexivity|].
  destruct (subscribe_without_scheduler Core.world_env one_consumer
              two_producers one_consumer 0 undefined 0 fresh_consumer
              eq_refl eq_refl eq_refl eq_refl)
    as (_ & (w' & Hsubscribe & Hdelivered & Hclose) & _).
  by exists w'.
Defined.

Lemma deferred_completion_witness :
  constructed_with two_producers 1 (object 9) ∧
  Core.pending one_consumer = [] ∧
  Core.consumers one_consumer !! 0 = Some fresh_consumer ∧
  ∃ w1 w2,
    Core.subscribe 1 0 two_producers one_consumer =
      Some (two_producers, w1, 0) ∧
    Core.delivered w1 = [] ∧
    Core.advance 1 9 0 two_producers w1 = Some (two_producers, w2) ∧
    Core.delivered w2 = [Core.complete_handler 0] ∧
    Core.delivered (Core.close 0 w1) = [].
Proof.
  split; [reflexivity|]. split; [reflexivity|]. split; [reflexivity|].
  destruct (deferred_completion two_producers one_consumer 1 9 0
              fresh_consumer eq_refl eq_refl (conj eq_refl eq_refl) eq_refl)
    as (w1 & h & Hsubscribe & _ & Hquiet & Hadvance & _ & Hidle).
  destruct (Hadvance 0 0 (Forall_nil_2 _)) as (w2 & Hrun & Honce & _).
  destruct (Hidle eq_refl) as (_ & Hclosed & _).
  exists w1, w2. repeat split; try done.
  apply (Hclosed (two_producers, Core.close 0 w1)). apply rtc_refl.
Defined.

(** * How the members compose

    Properties of sequences of calls of the members, in every
    environment. *)

Section Usage.

Import EmptyObservable.
Context {W : Type} (E : env W).

Lemma member_calls_grow σ σ' m :
  well_aimed (length σ) [m] = true ->
  σ `prefix_of` σ' ->
  member_calls σ' m = member_calls σ m.
Proof.
  intros Haimed [k ->]. destruct m as [arg|this sub|state]; simpl in *; try done.
  rewrite andb_true_r in Haimed. apply bool_decide_eq_true in Haimed.
  by rewrite lookup_app_l.
Qed.

Lemma run_member m σ w :
  well_aimed (length σ) [m] = true ->
  ∃ out,
    run E (member m) σ w = Some out ∧
    calls out = member_calls σ m ∧
    σ `prefix_of` final_heap out ∧
    length (final_heap out) =
      length σ + (if m is call_create _ then 1 else 0).
Proof.
  intros Haimed. destruct m as [arg|this sub|state]; cbn [member].
  - rewrite run_bind, run_create. eexists; split; [reflexivity|]; simpl.
    split; [done|]. split; [by eexists|]. by rewrite length_app.
  - simpl in Haimed. rewrite andb_true_r in Haimed.
    apply bool_decide_eq_true, lookup_lt_is_Some in Haimed as [o Hthis].
    rewrite run_bind, (run_subscribe _ _ _ _ _ _ Hthis).
    eexists; split; [reflexivity|]; simpl. rewrite Hthis.
    destruct (scheduler o); simpl; by rewrite Nat.add_0_r.
  - rewrite run_dispatch. eexists; split; [reflexivity|]; simpl.
    by rewrite Nat.add_0_r.
Qed.

Lemma well_aimed_split n m ms :
  well_aimed n (m :: ms) =
  well_aimed n [m] && well_aimed (n + (if m is call_create _ then 1 else 0)) ms.
Proof.
  destruct m; simpl.
  - by rewrite Nat.add_1_r.
  - by rewrite andb_true_r, Nat.add_0_r.
  - by rewrite Nat.add_0_r.
Qed.

(** X2: a sequence of calls of [create], [_subscribe] and [dispatch], each
    [_subscribe] aimed at an instance that exists by then, always runs to
    its end, and its calls can be read off the heap it leaves: nothing for
    a [create], one [complete()] for a [dispatch], and for a [_subscribe]
    the one call that the scheduler of its producer decides.  The heap
    only grew, and no call is a [next] or an [error]. *)
Theorem trace_of_any_use ms σ w :
  well_aimed (length σ) ms = true ->
  ∃ out,
    run E (members ms) σ w = Some out ∧
    calls out = ms ≫= member_calls (final_heap out) ∧
    σ `prefix_of` final_heap out ∧
    only_completion (calls out).
Proof.
  revert σ w. induction ms as [|m ms IH]; intros σ w Haimed; cbn [members].
  - eexists; split; [reflexivity|]. simpl. repeat split; [done|constructor].
  - rewrite well_aimed_split in Haimed.
    apply andb_true_iff in Haimed as [Hm Hms].
    destruct (run_member m σ w Hm) as (o & Hrun & Hcalls & Hpre & Hlen).
    rewrite run_bind, Hrun. cbn [mbind option_bind].
    rewrite <- Hlen in Hms.
    destruct (IH (final_heap o) (final_world o) Hms)
      as (out & -> & Hcalls' & Hpre' & Honly).
    eexists; split; [reflexivity|]; simpl.
    split; [|split].
    + rewrite Hcalls, Hcalls'. f_equal.
      symmetry. apply member_calls_grow; [done|]. by etrans.
    + by etrans.
    + apply Forall_app; split; [|done]. rewrite Hcalls.
      destruct m as [arg|this sub|state]; simpl.
      * constructor.
      * destruct (σ !! this) as [o'|]; [|constructor].
        destruct (scheduler o'); by repeat constructor.
      * by repeat constructor.
Qed.

Lemma run_create_each args σ w :
  run E (create_each args) σ w =
  Some {| calls := [];
          final_heap :=
            σ ++ ((fun arg => {| class_of := C_EmptyObservable;
                                 scheduler := param arg |}) <$> args);
          final_world := w;
          result := seq (length σ) (length args) |}.
Proof.
  revert σ. induction args as [|arg args IH]; intros σ; cbn [create_each].
  - simpl. by rewrite app_nil_r.
  - rewrite run_bind, run_create. cbn [mbind option_bind result final_heap
                                       final_world].
    rewrite run_bind, IH. simpl.
    by rewrite <- app_assoc, length_app, Nat.add_1_r.
Qed.

(** X3: [create] called once for each scheduler of a list makes no call
    and leaves the world alone, and returns as many different references,
    none of them on the heap before; the producer at each holds the
    scheduler it was created with, and subscribing to it makes the call
    which that scheduler alone decides. *)
Theorem producers_are_independent args σ w :
  ∃ out,
    run E (create_each args) σ w = Some out ∧
    calls out = [] ∧ final_world out = w ∧
    length (result out) = length args ∧
    NoDup (result out) ∧
    ∀ i arg,
      args !! i = Some arg ->
      ∃ this,
        result out !! i = Some this ∧
        σ !! this = None ∧
        constructed_with (final_heap out) this (param arg) ∧
        ∀ sub w', ∃ out',
          run E (_subscribe this sub) (final_heap out) w' = Some out' ∧
          calls out' = [attachment_call (param arg) sub] ∧
          final_heap out' = final_heap out.
Proof.
  rewrite run_create_each. eexists; split; [reflexivity|].
  cbn [calls final_world final_heap result].
  split; [done|]. split; [done|]. split; [apply length_seq|].
  split; [apply NoDup_seq|].
  intros i arg Hi. exists (length σ + i).
  set (σ' := σ ++ _).
  assert (Hthis : constructed_with σ' (length σ + i) (param arg)).
  { unfold constructed_with, σ'.
    rewrite lookup_app_r, Nat.add_comm, Nat.add_sub by lia.
    by rewrite list_lookup_fmap, Hi. }
  split; [apply lookup_seq; split; [done|by eapply lookup_lt_Some]|].
  split; [apply lookup_ge_None_2; lia|]. split; [exact Hthis|].
  intros sub w'. rewrite (run_subscribe _ _ _ _ _ _ Hthis).
  eexists; split; [reflexivity|]. by destruct (param arg).
Qed.

(** X1: what the scheduler branch puts off is what the other branch does
    at once.  Whenever the work handed to [schedule] is run with the state
    handed along, from any heap and world, it makes the same calls and
    leaves the same world as [_subscribe] on a producer without a
    scheduler does from there, for the same subscriber; and it leaves the
    heap as it found it. *)
Theorem deferred_is_immediate σ w this sch sub σ0 this0 v0 :
  constructed_with σ this (object sch) ->
  constructed_with σ0 this0 v0 -> truthy v0 = false ->
  ∃ out,
    run E (_subscribe this sub) σ w = Some out ∧
    (∃ work delay state, calls out = [schedule_call sch work delay state]) ∧
    ∀ sch' work delay state σ1 w1,
      schedule_call sch' work delay state ∈ calls out ->
      ∃ later at_once,
        run E (work state) σ1 w1 = Some later ∧
        run E (_subscribe this0 sub) σ0 w1 = Some at_once ∧
        calls later = calls at_once ∧
        final_world later = final_world at_once ∧
        final_heap later = σ1.
Proof.
  intros Hthis Hthis0 Hfalsy.
  rewrite (run_subscribe _ _ _ _ _ _ Hthis); cbn [scheduler].
  eexists; split; [reflexivity|]. split; [by do 3 eexists|].
  intros sch' work delay state σ1 w1 Hin. simpl in Hin.
  apply list_elem_of_singleton in Hin. injection Hin as -> -> -> ->.
  rewrite run_dispatch, (run_subscribe _ _ _ _ _ _ Hthis0); cbn [scheduler].
  do 2 eexists. split; [reflexivity|]. split; [reflexivity|].
  by destruct v0.
Qed.

Lemma scheduled_subscriber_attachment sch (subs : list Subscriber) :
  omap scheduled_subscriber (attachment_call (object sch) <$> subs) = subs.
Proof. induction subs as [|sub subs IH]; [done|]. simpl. f_equal. exact IH. Qed.

Lemma run_scheduled_any_order sch cs (subs : list Subscriber) σ w :
  cs ≡ₚ attachment_call (object sch) <$> subs ->
  ∃ out,
    run E (run_scheduled cs) σ w = Some out ∧
    calls out = complete_call <$> omap scheduled_subscriber cs ∧
    final_heap out = σ.
Proof.
  intros Hperm.
  assert (Hall : Forall (fun c => ∃ sub, c = attachment_call (object sch) sub) cs).
  { rewrite Hperm. apply Forall_fmap, Forall_true. intros sub. by exists sub. }
  clear Hperm. revert w.
  induction Hall as [|c cs [sub ->] _ IH]; intros w.
  - eexists; split; [reflexivity|done].
  - cbn [attachment_call run_scheduled].
    rewrite run_bind, run_dispatch. cbn [mbind option_bind final_heap
                                         final_world subscriber].
    destruct (IH (on_complete E sub w)) as (out & -> & Hcalls & Hheap).
    eexists; split; [reflexivity|]; simpl. by rewrite Hcalls, Hheap.
Qed.

(** X4: several subscribers attached to a producer that holds a
    scheduler: in whatever order the scheduler later runs the works it was
    handed, each attached subscriber gets [complete()] exactly once and
    nothing else is called, the heap staying as it is. *)
Theorem every_attachment_completes_once σ w this sch subs :
  constructed_with σ this (object sch) ->
  ∃ out,
    run E (subscribe_each this subs) σ w = Some out ∧
    ∀ cs σ1 w1,
      cs ≡ₚ calls out ->
      ∃ out',
        run E (run_scheduled cs) σ1 w1 = Some out' ∧
        calls out' ≡ₚ complete_call <$> subs ∧
        final_heap out' = σ1.
Proof.
  intros Hthis.
  destruct (run_subscribe_each E σ w this _ subs Hthis)
    as (out & Hrun & _ & Hcalls).
  exists out. split; [exact Hrun|].
  intros cs σ1 w1 Hperm. rewrite Hcalls in Hperm. cbn [scheduler] in Hperm.
  destruct (run_scheduled_any_order sch cs subs σ1 w1 Hperm)
    as (out' & Hrun' & Hcalls' & Hheap').
  exists out'. split; [exact Hrun'|]. split; [|exact Hheap'].
  rewrite Hcalls', Hperm. by rewrite scheduled_subscriber_attachment.
Qed.

End Usage.

(** ** The composition theorems at the concrete scene *)

Lemma deferred_is_immediate_witness :
  constructed_with two_producers 1 (object 9) ∧
  constructed_with two_producers 0 undefined ∧
  ∃ out,
    run Core.world_env (EmptyObservable._subscribe 1 0)
      two_producers one_consumer = Some out ∧
    ∃ work delay state, calls out = [schedule_call 9 work delay state].
Proof.
  split; [reflexivity|]. split; [reflexivity|].
  destruct (deferred_is_immediate Core.world_env two_producers one_consumer
              1 9 0 two_producers 0 undefined eq_refl eq_refl eq_refl)
    as (out & Hrun & Hcalls & _).
  by exists out.
Defined.

Lemma trace_of_any_use_witness :
  well_aimed (length two_producers)
    [call_create None; call_subscribe 2 0;
     call_dispatch {| subscriber := 0 |}; call_subscribe 1 5] = true ∧
  ∃ out,
    run Core.world_env
      (members [call_create None; call_subscribe 2 0;
                call_dispatch {| subscriber := 0 |}; call_subscribe 1 5])
      two_producers one_consumer = Some out ∧
    two_producers `prefix_of` final_heap out ∧
    only_completion (calls out).
Proof.
  split; [reflexivity|].
  destruct (trace_of_any_use Core.world_env
              [call_create None; call_subscribe 2 0;
               call_dispatch {| subscriber := 0 |}; call_subscribe 1 5]
              two_producers one_consumer eq_refl)
    as (out & Hrun & _ & Hprefix & Honly).
  by exists out.
Defined.

Lemma every_attachment_completes_once_witness :
  constructed_with two_producers 1 (object 9) ∧
  ∃ out out',
    run Core.world_env (subscribe_each 1 [0; 5]) two_producers one_consumer =
      Some out ∧
    run Core.world_env (run_scheduled (reverse (calls out))) two_producers
      one_consumer = Some out' ∧
    calls out' ≡ₚ [complete_call 0; complete_call 5].
Proof.
  split; [reflexivity|].
  destruct (every_attachment_completes_once Core.world_env two_producers
              one_consumer 1 9 [0; 5] eq_refl) as (out & Hrun & Hlater).
  destruct (Hlater (reverse (calls out)) two_producers one_consumer
              (reverse_Permutation _)) as (out' & Hrun' & Hcalls' & _).
  by exists out, out'.
Defined.
